(** * Fresnel equations: the numeric core of [Fresnel_equation_plot.py]

    The script evaluates Griffiths' Fresnel formulas (eq. 9.106-9.116) for
    light going from air ([n_1 = 1.0]) into glass ([n_2 = 1.5]) on a grid of
    angles of incidence and plots the result.  This development embeds the
    arithmetic part of the script (everything before the first call into
    matplotlib) and proves the properties stated about it.

    Numbers.  The script computes with NumPy [float64].  Here every such
    value is read as the real number it denotes and every NumPy operation as
    the exact real operation it approximates; rounding error is outside the
    model.  The two operations of the script that have no real value on part
    of their domain, the square root of a negative number and the division
    by zero, return [None]; a result [Some x] therefore says that no such
    operation took place while [x] was computed.

    Where a statement depends on the rounding itself, the module
    [Binary64] evaluates the same formulas in IEEE 754 binary64
    arithmetic, from the values of the sine and of the cosine on. *)

From Stdlib Require Import Reals Lra Lia List ZArith Bool.
From Stdlib Require Import Machin Rtrigo_facts Sorted.
From Stdlib Require PrimFloat.
Import ListNotations.

Open Scope R_scope.

(** ** Partial results *)

Definition bind {A B : Type} (m : option A) (k : A -> option B) : option B :=
  match m with
  | Some a => k a
  | None => None
  end.

Notation "x <- m ;; k" := (bind m (fun x => k))
  (at level 61, m at next level, right associativity).

(** ** The NumPy operations the script calls *)

Module Np.

(** [np.sqrt]: no real value below zero. *)
Definition sqrt (x : R) : option R :=
  if Rlt_dec x 0 then None else Some (R_sqrt.sqrt x).

(** [a / b] on floats: no real value when the divisor is zero. *)
Definition div (a b : R) : option R :=
  if Req_dec_T b 0 then None else Some (a / b).

(** [np.radians] and [np.degrees]. *)
Definition radians (x : R) : R := x * (PI / 180).
Definition degrees (x : R) : R := x * (180 / PI).

(** [np.arctan]. *)
Definition arctan (x : R) : R := atan x.

(** [np.linspace(start, stop, num)] with the default [endpoint=True]:
    the samples [k * step + start] for [k = 0 .. num-1] with
    [step = (stop - start) / (num - 1)], after which the last sample is
    overwritten with [stop] itself. *)
Definition linspace (start stop : R) (num : nat) : list R :=
  let step := (stop - start) / INR (num - 1) in
  let y := map (fun k => INR k * step + start) (seq 0 num) in
  if (1 <? num)%nat then removelast y ++ [stop] else y.

(** [np.arange(start, stop, step)] on integers with a positive step:
    [ceil((stop - start) / step)] values from [start] on. *)
Definition arange (start stop step : Z) : list Z :=
  let len := Z.to_nat ((stop - start + step - 1) / step) in
  map (fun k => (start + Z.of_nat k * step)%Z) (seq 0 len).

(** [np.rint]: the nearest integer, a tie going to the even neighbour. *)
Definition rint (x : R) : Z :=
  let f := Int_part x in
  let d := x - IZR f in
  if Rlt_dec d (1 / 2) then f
  else if Rlt_dec (1 / 2) d then (f + 1)%Z
  else if Z.even f then f else (f + 1)%Z.

(** [np.round(a, decimals)] for [decimals >= 0]: scale by
    [10^decimals], round to the nearest integer, scale back. *)
Definition round (a : list R) (decimals : nat) : list R :=
  map (fun x => IZR (rint (x * 10 ^ decimals)) / 10 ^ decimals) a.

(** [np.append(arr, values)] of an integer array and a float array: the
    concatenation, the integers promoted to floats. *)
Definition append (arr : list Z) (values : list R) : list R :=
  map IZR arr ++ values.

(** Ascending sort, as [np.unique] performs it. *)
Fixpoint insert (x : R) (l : list R) : list R :=
  match l with
  | [] => [x]
  | y :: l' => if Rle_dec x y then x :: l else y :: insert x l'
  end.

Definition sort (l : list R) : list R := fold_right insert [] l.

(** Of each run of equal neighbours the first one is kept. *)
Fixpoint dedup (l : list R) : list R :=
  match l with
  | [] => []
  | x :: l' =>
      match l' with
      | [] => [x]
      | y :: _ => if Req_dec_T x y then dedup l' else x :: dedup l'
      end
  end.

(** [np.unique]: the sorted distinct values. *)
Definition unique (l : list R) : list R := dedup (sort l).

Definition isin (x : R) (l : list R) : bool :=
  existsb (fun y => if Req_dec_T x y then true else false) l.

(** [np.setdiff1d(ar1, ar2)]: the sorted distinct values of [ar1] that
    do not occur in [ar2] (an integer array here). *)
Definition setdiff1d (ar1 : list R) (ar2 : list Z) : list R :=
  let ar2' := unique (map IZR ar2) in
  filter (fun x => negb (isin x ar2')) (unique ar1).

End Np.

(** ** The optics evaluator *)

(** Refractive indices of air and of glass (module-level constants). *)
Definition n_1 : R := 1.
Definition n_2 : R := 3 / 2.

(** The argument of the square root in [alphaAndBeta], for arbitrary
    indices.  Both indices of the script are nonzero constants, so the
    quotients [n_1/n_2] and [n_2/n_1] are ordinary real quotients. *)
Definition radicand (n1 n2 theta_i : R) : R :=
  1 - ((n1 / n2) * sin theta_i) ^ 2.

Definition alphaAndBeta (theta_i : R) : option (R * R) :=
  s <- Np.sqrt (1 - ((n_1 / n_2) * sin theta_i) ^ 2) ;;
  alpha <- Np.div s (cos theta_i) ;;
  let beta := n_2 / n_1 in
  Some (alpha, beta).

Definition reflectionAndTransmissionCoefficient (theta_i : R)
  : option (R * R) :=
  alpha <- option_map fst (alphaAndBeta theta_i) ;;
  beta <- option_map snd (alphaAndBeta theta_i) ;;
  reflection_coefficient <- Np.div (alpha - beta) (alpha + beta) ;;
  transmission_coefficient <- Np.div 2 (alpha + beta) ;;
  Some (reflection_coefficient, transmission_coefficient).

Definition reflectanceAndTransmittance (theta_i : R) : option (R * R) :=
  alpha <- option_map fst (alphaAndBeta theta_i) ;;
  beta <- option_map snd (alphaAndBeta theta_i) ;;
  q <- Np.div (alpha - beta) (alpha + beta) ;;
  let reflectance := q ^ 2 in
  t <- Np.div 2 (alpha + beta) ;;
  let transmittance := alpha * beta * t ^ 2 in
  Some (reflectance, transmittance).

(** ** The sampler *)

(** The grid of angles of incidence, in radians. *)
Definition theta_range : list R :=
  map Np.radians (Np.linspace 0 100 100).

(** The four sampled curves.  An entry is [None] where the evaluator has
    no real value at the grid angle. *)
Definition reflection_coefficient : list (option R) :=
  map (fun theta => option_map fst (reflectionAndTransmissionCoefficient theta))
      theta_range.

Definition transmission_coefficient : list (option R) :=
  map (fun theta => option_map snd (reflectionAndTransmissionCoefficient theta))
      theta_range.

Definition reflectance : list (option R) :=
  map (fun theta => option_map fst (reflectanceAndTransmittance theta))
      theta_range.

Definition transmittance : list (option R) :=
  map (fun theta => option_map snd (reflectanceAndTransmittance theta))
      theta_range.

(** ** Brewster's angle and the ticks of the x axis *)

Definition theta_brewster : R := Np.degrees (Np.arctan (n_2 / n_1)).

Definition ticks_x : list R :=
  Np.setdiff1d (Np.append (Np.arange 0 90 10) (Np.round [theta_brewster] 3))
               [50; 60]%Z.

(** ** The formulas of the specification

    Section 4.1 of the specification, read as formulas over the reals. *)

Module Spec.

(** [alpha = sqrt(1 - ((n1/n2) sin theta)^2) / cos theta] *)
Definition alpha (theta_i : R) : R :=
  sqrt (1 - ((n_1 / n_2) * sin theta_i) ^ 2) / cos theta_i.

(** [beta = n2/n1] *)
Definition beta : R := n_2 / n_1.

(** [r = (alpha - beta) / (alpha + beta)] *)
Definition r (theta_i : R) : R :=
  (alpha theta_i - beta) / (alpha theta_i + beta).

(** [t = 2 / (alpha + beta)] *)
Definition t (theta_i : R) : R := 2 / (alpha theta_i + beta).

(** [R = r^2] *)
Definition refl (theta_i : R) : R := r theta_i ^ 2.

(** [T = alpha * beta * t^2] *)
Definition trans (theta_i : R) : R :=
  alpha theta_i * beta * t theta_i ^ 2.

(** Section 4.2: the [k]-th of 100 evenly spaced samples of [0, 100]
    degrees, in radians. *)
Definition sample (k : nat) : R := Np.radians (INR k * (100 / 99)).

End Spec.

(** ** The evaluator in binary64 arithmetic

    The three functions of the script on [float64] values, with the
    correctly rounded IEEE 754 operations.  [np.sin] and [np.cos] are
    library calls; the functions below start from their results
    [sin_theta] and [cos_theta].  A square [x ** 2] is the rounded product
    of [x] with itself. *)

Module Binary64.

Import PrimFloat.
Local Open Scope float_scope.

Definition n_1 : float := 1.0.
Definition n_2 : float := 1.5.

Definition square (x : float) : float := x * x.

Definition radicand (sin_theta : float) : float :=
  1 - square ((n_1 / n_2) * sin_theta).

Definition alphaAndBeta (sin_theta cos_theta : float) : float * float :=
  let alpha := sqrt (1 - square ((n_1 / n_2) * sin_theta)) / cos_theta in
  let beta := n_2 / n_1 in
  (alpha, beta).

Definition reflectionAndTransmissionCoefficient (sin_theta cos_theta : float)
  : float * float :=
  let alpha := fst (alphaAndBeta sin_theta cos_theta) in
  let beta := snd (alphaAndBeta sin_theta cos_theta) in
  let reflection_coefficient := (alpha - beta) / (alpha + beta) in
  let transmission_coefficient := 2 / (alpha + beta) in
  (reflection_coefficient, transmission_coefficient).

Definition reflectanceAndTransmittance (sin_theta cos_theta : float)
  : float * float :=
  let alpha := fst (alphaAndBeta sin_theta cos_theta) in
  let beta := snd (alphaAndBeta sin_theta cos_theta) in
  let reflectance := square ((alpha - beta) / (alpha + beta)) in
  let transmittance := alpha * beta * square (2 / (alpha + beta)) in
  (reflectance, transmittance).

(** [np.sin(0.0)] and [np.cos(0.0)]: exact at zero. *)
Definition sin_0 : float := 0.0.
Definition cos_0 : float := 1.0.


End Binary64.

(** * Properties *)

(** ** The partial operations *)

Lemma np_sqrt_some (x : R) : 0 <= x -> Np.sqrt x = Some (sqrt x).
Proof.
  intros Hx. unfold Np.sqrt.
  destruct (Rlt_dec x 0) as [Hneg | _]; [lra | reflexivity].
Qed.

Lemma np_div_some (a b : R) : b <> 0 -> Np.div a b = Some (a / b).
Proof.
  intros Hb. unfold Np.div.
  destruct (Req_dec_T b 0) as [Hz | _]; [contradiction | reflexivity].
Qed.

Lemma np_div_none (a b : R) : b = 0 -> Np.div a b = None.
Proof.
  intros Hb. unfold Np.div.
  destruct (Req_dec_T b 0) as [_ | Hnz]; [reflexivity | contradiction].
Qed.

Lemma beta_val : n_2 / n_1 = 3 / 2.
Proof. unfold n_1, n_2. field. Qed.

Lemma ratio_val : n_1 / n_2 = 2 / 3.
Proof. unfold n_1, n_2. field. Qed.

(** ** The evaluator, step by step *)

Lemma alphaAndBeta_some (theta_i : R) :
  cos theta_i <> 0 ->
  0 <= radicand n_1 n_2 theta_i ->
  alphaAndBeta theta_i = Some (Spec.alpha theta_i, Spec.beta).
Proof.
  intros Hcos Hrad. unfold alphaAndBeta, radicand in *.
  rewrite (np_sqrt_some _ Hrad). cbn [bind].
  rewrite (np_div_some _ _ Hcos). reflexivity.
Qed.

(** Once [alphaAndBeta] has a value, the two other functions only depend
    on it: both calls of [alphaAndBeta] return the same pair. *)
Section FromAlphaAndBeta.

Variables theta_i a b : R.
Hypothesis Hab : alphaAndBeta theta_i = Some (a, b).

Lemma coefficients_from_alpha_beta :
  reflectionAndTransmissionCoefficient theta_i =
    (r <- Np.div (a - b) (a + b) ;; t <- Np.div 2 (a + b) ;; Some (r, t)).
Proof.
  unfold reflectionAndTransmissionCoefficient.
  rewrite Hab. reflexivity.
Qed.

Lemma powers_from_alpha_beta :
  reflectanceAndTransmittance theta_i =
    (q <- Np.div (a - b) (a + b) ;; t <- Np.div 2 (a + b) ;;
     Some (q ^ 2, a * b * t ^ 2)).
Proof.
  unfold reflectanceAndTransmittance.
  rewrite Hab. reflexivity.
Qed.

Lemma coefficients_some :
  a + b <> 0 ->
  reflectionAndTransmissionCoefficient theta_i =
    Some ((a - b) / (a + b), 2 / (a + b)).
Proof.
  intros Hsum. rewrite coefficients_from_alpha_beta.
  rewrite !(np_div_some _ _ Hsum). reflexivity.
Qed.

Lemma powers_some :
  a + b <> 0 ->
  reflectanceAndTransmittance theta_i =
    Some (((a - b) / (a + b)) ^ 2, a * b * (2 / (a + b)) ^ 2).
Proof.
  intros Hsum. rewrite powers_from_alpha_beta.
  rewrite !(np_div_some _ _ Hsum). reflexivity.
Qed.

Lemma coefficients_none :
  a + b = 0 ->
  reflectionAndTransmissionCoefficient theta_i = None /\
  reflectanceAndTransmittance theta_i = None.
Proof.
  intros Hsum.
  rewrite coefficients_from_alpha_beta, powers_from_alpha_beta.
  rewrite (np_div_none _ _ Hsum). split; reflexivity.
Qed.

End FromAlphaAndBeta.

(** ** Normal incidence *)

Lemma radicand_0 : radicand n_1 n_2 0 = 1.
Proof. unfold radicand. rewrite sin_0. ring. Qed.

Lemma alphaAndBeta_0 : alphaAndBeta 0 = Some (1, 3 / 2).
Proof.
  rewrite alphaAndBeta_some.
  - unfold Spec.alpha, Spec.beta.
    fold (radicand n_1 n_2 0). rewrite radicand_0, sqrt_1, cos_0, beta_val.
    f_equal. f_equal. field.
  - rewrite cos_0. lra.
  - rewrite radicand_0. lra.
Qed.

(** ** The radicand *)

Lemma sin_sqr_le_1 (x : R) : sin x ^ 2 <= 1.
Proof. pose proof (SIN_bound x). nra. Qed.

Lemma radicand_general_nonneg (n1 n2 theta_i : R) :
  0 < n1 -> n1 < n2 -> 0 <= radicand n1 n2 theta_i.
Proof.
  intros H1 H12. unfold radicand.
  assert (Hq : 0 < n1 / n2 < 1).
  { split.
    - apply Rdiv_lt_0_compat; lra.
    - apply (Rmult_lt_reg_r n2); [lra |].
      unfold Rdiv. rewrite Rmult_assoc, Rinv_l; lra. }
  pose proof (sin_sqr_le_1 theta_i) as Hs.
  assert (Hs0 : 0 <= sin theta_i ^ 2) by apply pow2_ge_0.
  replace ((n1 / n2 * sin theta_i) ^ 2)
    with ((n1 / n2) ^ 2 * sin theta_i ^ 2) by ring.
  assert (Hq2 : 0 <= (n1 / n2) ^ 2 <= 1) by nra.
  nra.
Qed.

(** For the indices of the script the radicand stays above [5/9]. *)
Lemma radicand_lower_bound (theta_i : R) : 5 / 9 <= radicand n_1 n_2 theta_i.
Proof.
  unfold radicand. rewrite ratio_val.
  pose proof (sin_sqr_le_1 theta_i). nra.
Qed.

Lemma radicand_pos (theta_i : R) : 0 < radicand n_1 n_2 theta_i.
Proof. pose proof (radicand_lower_bound theta_i). lra. Qed.

(** ** Acute angles *)

Lemma alpha_pos_acute (theta_i : R) :
  - (PI / 2) < theta_i < PI / 2 -> 0 < Spec.alpha theta_i.
Proof.
  intros [Hlo Hhi]. unfold Spec.alpha.
  apply Rdiv_lt_0_compat.
  - apply sqrt_lt_R0. exact (radicand_pos theta_i).
  - apply cos_gt_0; assumption.
Qed.

Lemma evaluator_acute (theta_i : R) :
  - (PI / 2) < theta_i < PI / 2 ->
  alphaAndBeta theta_i = Some (Spec.alpha theta_i, Spec.beta) /\
  Spec.alpha theta_i + Spec.beta > 0.
Proof.
  intros Hth. split.
  - apply alphaAndBeta_some.
    + apply Rgt_not_eq, cos_gt_0; tauto.
    + apply Rlt_le, radicand_pos.
  - pose proof (alpha_pos_acute _ Hth). unfold Spec.beta. rewrite beta_val. lra.
Qed.

(** ** Brewster's angle *)

Lemma alpha_brewster : Spec.alpha (atan (3 / 2)) = 3 / 2.
Proof.
  unfold Spec.alpha. rewrite ratio_val, sin_atan, cos_atan.
  replace (1 + (3 / 2)²) with (13 / 4) by (unfold Rsqr; field).
  set (s := sqrt (13 / 4)).
  assert (Hs : 0 < s) by (apply sqrt_lt_R0; lra).
  assert (Hs2 : s * s = 13 / 4) by (apply sqrt_sqrt; lra).
  assert (Hr : sqrt (1 - (2 / 3 * (3 / 2 / s)) ^ 2) = 3 / 2 / s).
  { apply sqrt_lem_1.
    - assert (H : (2 / 3 * (3 / 2 / s)) ^ 2 = 4 / 13).
      { replace ((2 / 3 * (3 / 2 / s)) ^ 2) with (/ (s * s)) by (field; lra).
        rewrite Hs2. field. }
      rewrite H. lra.
    - apply Rlt_le, Rdiv_lt_0_compat; lra.
    - replace (3 / 2 / s * (3 / 2 / s)) with (9 / 4 / (s * s)) by (field; lra).
      replace ((2 / 3 * (3 / 2 / s)) ^ 2) with (/ (s * s)) by (field; lra).
      rewrite Hs2. field. }
  rewrite Hr. field. lra.
Qed.

Lemma alphaAndBeta_brewster :
  alphaAndBeta (Np.arctan (n_2 / n_1)) = Some (3 / 2, 3 / 2).
Proof.
  unfold Np.arctan. rewrite beta_val.
  assert (Hb : - (PI / 2) < atan (3 / 2) < PI / 2).
  { pose proof (atan_bound (3 / 2)). lra. }
  destruct (evaluator_acute (atan (3 / 2)) Hb) as [H _].
  rewrite H, alpha_brewster. unfold Spec.beta. rewrite beta_val. reflexivity.
Qed.

(** The supplement of Brewster's angle is the one angle, up to the period,
    at which [alpha] has a value and [alpha + beta] vanishes. *)
Lemma alpha_supplement (theta_i : R) :
  Spec.alpha (PI - theta_i) = - Spec.alpha theta_i.
Proof.
  unfold Spec.alpha.
  rewrite sin_PI_x, cos_pi_minus, Rdiv_opp_r. reflexivity.
Qed.

Lemma evaluator_brewster_supplement :
  cos (PI - atan (3 / 2)) <> 0 /\
  0 <= radicand n_1 n_2 (PI - atan (3 / 2)) /\
  alphaAndBeta (PI - atan (3 / 2)) = Some (- (3 / 2), 3 / 2) /\
  reflectionAndTransmissionCoefficient (PI - atan (3 / 2)) = None /\
  reflectanceAndTransmittance (PI - atan (3 / 2)) = None.
Proof.
  assert (Hcos : cos (PI - atan (3 / 2)) <> 0).
  { rewrite cos_pi_minus, cos_atan.
    assert (0 < sqrt (1 + (3 / 2)²)).
    { apply sqrt_lt_R0. unfold Rsqr. lra. }
    assert (0 < 1 / sqrt (1 + (3 / 2)²)) by (apply Rdiv_lt_0_compat; lra).
    lra. }
  assert (Hrad : 0 <= radicand n_1 n_2 (PI - atan (3 / 2)))
    by apply Rlt_le, radicand_pos.
  assert (Hab : alphaAndBeta (PI - atan (3 / 2)) = Some (- (3 / 2), 3 / 2)).
  { rewrite (alphaAndBeta_some _ Hcos Hrad), alpha_supplement, alpha_brewster.
    unfold Spec.beta. rewrite beta_val. reflexivity. }
  assert (Hsum : - (3 / 2) + 3 / 2 = 0) by lra.
  split; [exact Hcos | split; [exact Hrad | split; [exact Hab |]]].
  exact (coefficients_none _ _ _ Hab Hsum).
Qed.

(** ** The sample grid *)

Lemma linspace_samples (start stop : R) (num : nat) :
  (1 < num)%nat ->
  Np.linspace start stop num =
    map (fun k => INR k * ((stop - start) / INR (num - 1)) + start)
        (seq 0 num).
Proof.
  intros Hnum. unfold Np.linspace.
  destruct (Nat.ltb_spec 1 num) as [_ | Hle]; [| lia].
  destruct num as [| m]; [lia |].
  replace (S m - 1)%nat with m by lia.
  rewrite seq_S, !map_app. cbn [map Nat.add].
  rewrite removelast_last. do 2 f_equal.
  assert (Hm : INR m <> 0) by (apply not_0_INR; lia).
  field. exact Hm.
Qed.

Lemma theta_range_samples : theta_range = map Spec.sample (seq 0 100).
Proof.
  unfold theta_range. rewrite linspace_samples by lia.
  rewrite map_map. apply map_ext. intros k. unfold Spec.sample.
  replace (INR (100 - 1)) with 99.
  - f_equal. field.
  - change (100 - 1)%nat with 99%nat. rewrite INR_IZR_INZ. reflexivity.
Qed.

Lemma theta_range_nth (k : nat) :
  (k < 100)%nat -> nth_error theta_range k = Some (Spec.sample k).
Proof.
  intros Hk. rewrite theta_range_samples, nth_error_map, nth_error_seq.
  destruct (Nat.ltb_spec k 100) as [_ | Hge]; [reflexivity | lia].
Qed.

Lemma degrees_radians (x : R) : Np.degrees (Np.radians x) = x.
Proof.
  unfold Np.degrees, Np.radians. pose proof PI_RGT_0. field. lra.
Qed.

Lemma sample_lt (i j : nat) : (i < j)%nat -> Spec.sample i < Spec.sample j.
Proof.
  intros Hij. unfold Spec.sample, Np.radians.
  apply lt_INR in Hij. pose proof PI_RGT_0. nra.
Qed.

Lemma INR_le_const (k n : nat) : (k <= n)%nat -> INR k <= IZR (Z.of_nat n).
Proof. intros H. rewrite <- INR_IZR_INZ. apply le_INR. exact H. Qed.

Lemma INR_ge_const (k n : nat) : (n <= k)%nat -> IZR (Z.of_nat n) <= INR k.
Proof. intros H. rewrite <- INR_IZR_INZ. apply le_INR. exact H. Qed.

(** The samples up to index 89 lie in [0, PI/2), the other ten in
    (PI/2, PI/2 + PI/18]. *)
Lemma sample_acute (k : nat) :
  (k <= 89)%nat -> 0 <= Spec.sample k < PI / 2.
Proof.
  intros Hk. unfold Spec.sample, Np.radians.
  pose proof (INR_le_const k 89 Hk) as Hub. cbn in Hub.
  pose proof (pos_INR k). pose proof PI_RGT_0. split; nra.
Qed.

Lemma sample_obtuse (k : nat) :
  (90 <= k < 100)%nat -> PI / 2 < Spec.sample k <= PI / 2 + PI / 18.
Proof.
  intros [Hlo Hhi]. unfold Spec.sample, Np.radians.
  pose proof (INR_ge_const k 90 Hlo) as Hlb. cbn in Hlb.
  assert (Hk : (k <= 99)%nat) by lia.
  pose proof (INR_le_const k 99 Hk) as Hub. cbn in Hub.
  pose proof PI_RGT_0. split; nra.
Qed.

(** ** Where [alpha + beta] vanishes *)

Lemma alpha_times_cos (theta_i : R) :
  cos theta_i <> 0 ->
  (Spec.alpha theta_i * cos theta_i) ^ 2 = radicand n_1 n_2 theta_i.
Proof.
  intros Hcos. unfold Spec.alpha. fold (radicand n_1 n_2 theta_i).
  replace (sqrt (radicand n_1 n_2 theta_i) / cos theta_i * cos theta_i)
    with (sqrt (radicand n_1 n_2 theta_i)) by (field; exact Hcos).
  rewrite <- Rsqr_pow2. apply Rsqr_sqrt. apply Rlt_le, radicand_pos.
Qed.

Lemma alpha_plus_beta_zero_cos (theta_i : R) :
  cos theta_i <> 0 ->
  Spec.alpha theta_i + Spec.beta = 0 ->
  cos theta_i ^ 2 = 4 / 13.
Proof.
  intros Hcos Hsum.
  pose proof (alpha_times_cos _ Hcos) as Hsq.
  unfold Spec.beta in Hsum. rewrite beta_val in Hsum.
  replace (Spec.alpha theta_i) with (- (3 / 2)) in Hsq by lra.
  unfold radicand in Hsq. rewrite ratio_val in Hsq.
  pose proof (sin2_cos2 theta_i) as Hpyth. unfold Rsqr in Hpyth.
  nra.
Qed.

Lemma cos_small_past_right_angle (theta_i : R) :
  PI / 2 < theta_i <= PI / 2 + PI / 18 ->
  cos theta_i < 0 /\ cos theta_i ^ 2 < 4 / 81.
Proof.
  intros [Hlo Hhi]. pose proof PI_RGT_0 as Hpi. pose proof PI_4 as Hpi4.
  assert (Hneg : cos theta_i < 0) by (apply cos_lt_0; lra).
  split; [exact Hneg |].
  assert (Hx : 0 < theta_i - PI / 2) by lra.
  pose proof (sin_lt_x _ Hx) as Hsin.
  assert (Hcs : cos theta_i = - sin (theta_i - PI / 2)).
  { rewrite <- sin_neg. replace (- (theta_i - PI / 2)) with (PI / 2 - theta_i) by ring.
    rewrite sin_shift. reflexivity. }
  nra.
Qed.

Lemma evaluator_past_right_angle (theta_i : R) :
  PI / 2 < theta_i <= PI / 2 + PI / 18 ->
  alphaAndBeta theta_i = Some (Spec.alpha theta_i, Spec.beta) /\
  Spec.alpha theta_i + Spec.beta <> 0.
Proof.
  intros Hth. destruct (cos_small_past_right_angle _ Hth) as [Hneg Hsq].
  assert (Hcos : cos theta_i <> 0) by lra.
  split.
  - apply alphaAndBeta_some; [exact Hcos | apply Rlt_le, radicand_pos].
  - intros Hsum. pose proof (alpha_plus_beta_zero_cos _ Hcos Hsum). lra.
Qed.

Lemma evaluator_on_sample (k : nat) :
  (k < 100)%nat ->
  cos (Spec.sample k) <> 0 /\
  alphaAndBeta (Spec.sample k) = Some (Spec.alpha (Spec.sample k), Spec.beta) /\
  Spec.alpha (Spec.sample k) + Spec.beta <> 0.
Proof.
  intros Hk. destruct (Nat.le_gt_cases k 89) as [Hlow | Hhigh].
  - pose proof (sample_acute k Hlow) as [H0 H1]. pose proof PI_RGT_0.
    assert (Hth : - (PI / 2) < Spec.sample k < PI / 2) by lra.
    destruct (evaluator_acute _ Hth) as [Hab Hsum].
    split; [apply Rgt_not_eq, cos_gt_0; lra | split; [exact Hab | lra]].
  - assert (Hr : (90 <= k < 100)%nat) by lia.
    pose proof (sample_obtuse k Hr) as Hth.
    destruct (cos_small_past_right_angle _ Hth) as [Hneg _].
    destruct (evaluator_past_right_angle _ Hth) as [Hab Hsum].
    split; [lra | split; assumption].
Qed.

(** ** Brewster's angle in degrees

    [atan (3/2)] and [PI] are both expressed through [atan (1/5)] and
    [atan (1/239)] (Machin's formula), which the alternating arctangent
    series encloses between rationals. *)

Lemma atan_series_bounds (x : R) (N : nat) :
  0 < x < 1 ->
  sum_f_R0 (tg_alt (Ratan_seq x)) (S (2 * N)) <= atan x
    <= sum_f_R0 (tg_alt (Ratan_seq x)) (2 * N).
Proof.
  intros Hx.
  assert (H01 : 0 <= x <= 1) by lra.
  rewrite (atan_eq_ps_atan _ Hx). unfold ps_atan.
  destruct (Ratan.in_int x) as [Hin | Hout]; [| exfalso; apply Hout; lra].
  destruct (ps_atan_exists_1 _ Hin) as [v Hv]. cbn [proj1_sig].
  apply alternated_series_ineq.
  - exact (Ratan_seq_decreasing _ H01).
  - exact (Ratan_seq_converging _ H01).
  - exact Hv.
Qed.

Lemma atan_fifth_bounds : 19739 / 100000 < atan (/ 5) < 19740 / 100000.
Proof.
  assert (Hx : 0 < / 5 < 1) by lra.
  pose proof (atan_series_bounds (/ 5) 1 Hx) as [Hlo Hhi].
  cbv [sum_f_R0 tg_alt Ratan_seq Nat.mul Nat.add] in Hlo, Hhi.
  cbn [INR] in Hlo, Hhi.
  split; lra.
Qed.

Lemma atan_239th_bounds : 41840 / 10000000 < atan (/ 239) < 41842 / 10000000.
Proof.
  assert (Hx : 0 < / 239 < 1) by lra.
  pose proof (atan_series_bounds (/ 239) 0 Hx) as [Hlo Hhi].
  cbv [sum_f_R0 tg_alt Ratan_seq Nat.mul Nat.add] in Hlo, Hhi.
  cbn [INR] in Hlo, Hhi.
  split; lra.
Qed.

Lemma PI_machin : PI = 16 * atan (/ 5) - 4 * atan (/ 239).
Proof. pose proof Machin_4_5_239. lra. Qed.

Lemma atan_three_halves : atan (3 / 2) = PI / 4 + atan (/ 5).
Proof.
  rewrite <- atan_1.
  replace (/ 5) with (atan_sub (3 / 2) 1) by (unfold atan_sub; field).
  apply atan_sub_correct.
  - lra.
  - pose proof (atan_bound (3 / 2)). pose proof (atan_bound 1).
    assert (0 < atan 1) by (rewrite <- atan_0; apply atan_increasing; lra).
    assert (0 < atan (3 / 2)) by (rewrite <- atan_0; apply atan_increasing; lra).
    lra.
  - apply atan_bound.
Qed.

Lemma theta_brewster_unfold : theta_brewster = atan (3 / 2) * (180 / PI).
Proof. unfold theta_brewster, Np.degrees, Np.arctan. rewrite beta_val. reflexivity. Qed.

Lemma theta_brewster_bounds : 563099 / 10000 < theta_brewster < 5631 / 100.
Proof.
  pose proof atan_fifth_bounds as [Ha1 Ha2].
  pose proof atan_239th_bounds as [Hb1 Hb2].
  pose proof PI_machin as HPI. pose proof PI_RGT_0 as Hpos.
  rewrite theta_brewster_unfold, atan_three_halves.
  replace ((PI / 4 + atan (/ 5)) * (180 / PI))
    with (45 + 180 * atan (/ 5) / PI) by (field; lra).
  assert (Hmul : (45 + 180 * atan (/ 5) / PI) * PI = 45 * PI + 180 * atan (/ 5))
    by (field; lra).
  split; apply (Rmult_lt_reg_r PI); try lra; rewrite Hmul; lra.
Qed.

(** ** Rounding and the tick list *)

Lemma rint_upper_half (x : R) (z : Z) :
  IZR z + 1 / 2 < x < IZR z + 1 -> Np.rint x = (z + 1)%Z.
Proof.
  intros [Hlo Hhi]. unfold Np.rint.
  assert (Hz : z = Int_part x) by (apply Int_part_spec; lra).
  rewrite <- Hz.
  destruct (Rlt_dec (x - IZR z) (1 / 2)) as [Hlt | _]; [lra |].
  destruct (Rlt_dec (1 / 2) (x - IZR z)) as [_ | Hnlt]; [reflexivity | lra].
Qed.

Lemma round_theta_brewster : Np.round [theta_brewster] 3 = [5631 / 100].
Proof.
  unfold Np.round. cbn [map]. f_equal.
  pose proof theta_brewster_bounds as [Hlo Hhi].
  rewrite (rint_upper_half _ 56309) by (split; lra).
  change (56309 + 1)%Z with 56310%Z. field.
Qed.

Lemma arange_ticks : Np.arange 0 90 10 = [0; 10; 20; 30; 40; 50; 60; 70; 80]%Z.
Proof. reflexivity. Qed.

Lemma insert_nil (x : R) : Np.insert x [] = [x].
Proof. reflexivity. Qed.

Lemma dedup_single (x : R) : Np.dedup [x] = [x].
Proof. reflexivity. Qed.

Lemma insert_head (x y : R) (l : list R) :
  x <= y -> Np.insert x (y :: l) = x :: y :: l.
Proof.
  intros H. cbn [Np.insert].
  destruct (Rle_dec x y) as [_ | Hn]; [reflexivity | contradiction].
Qed.

Lemma insert_tail (x y : R) (l : list R) :
  y < x -> Np.insert x (y :: l) = y :: Np.insert x l.
Proof.
  intros H. cbn [Np.insert].
  destruct (Rle_dec x y) as [Hle | _]; [lra | reflexivity].
Qed.

Lemma dedup_distinct (x y : R) (l : list R) :
  x <> y -> Np.dedup (x :: y :: l) = x :: Np.dedup (y :: l).
Proof.
  intros H. cbn [Np.dedup].
  destruct (Req_dec_T x y) as [He | _]; [contradiction | reflexivity].
Qed.

Lemma isin_cons_eq (x : R) (l : list R) : Np.isin x (x :: l) = true.
Proof.
  unfold Np.isin. cbn [existsb].
  destruct (Req_dec_T x x) as [_ | Hn]; [reflexivity | contradiction].
Qed.

Lemma isin_cons_neq (x y : R) (l : list R) :
  x <> y -> Np.isin x (y :: l) = Np.isin x l.
Proof.
  intros H. unfold Np.isin. cbn [existsb].
  destruct (Req_dec_T x y) as [He | _]; [contradiction | reflexivity].
Qed.

Lemma isin_nil (x : R) : Np.isin x [] = false.
Proof. reflexivity. Qed.

(** Sorting, deduplicating and filtering a list of numerals step by
    step, each comparison settled by [lra]. *)
Ltac sort_numerals :=
  repeat first
    [ rewrite insert_nil
    | rewrite insert_head by lra
    | rewrite insert_tail by lra ].

Ltac dedup_numerals :=
  repeat first
    [ rewrite dedup_single
    | rewrite dedup_distinct by lra ].

Ltac isin_numerals :=
  repeat first
    [ rewrite isin_cons_eq
    | rewrite isin_cons_neq by lra
    | rewrite isin_nil
    | progress cbn [negb] ].

(** * The claims *)

(** C1.  At every angle of incidence where the cosine is nonzero and the
    radicand is nonnegative, [alphaAndBeta] returns the [alpha] and the
    [beta] of the specification; the two other functions return the
    quotients [r = (alpha - beta)/(alpha + beta)], [t = 2/(alpha + beta)],
    [R = r^2] and [T = alpha * beta * t^2] of the specification wherever
    these quotients have a value, and have no value where the quotients
    have none. *)
Theorem evaluator_computes_spec_formulas (theta_i : R) :
  cos theta_i <> 0 ->
  0 <= radicand n_1 n_2 theta_i ->
  alphaAndBeta theta_i = Some (Spec.alpha theta_i, Spec.beta) /\
  (Spec.alpha theta_i + Spec.beta <> 0 ->
   reflectionAndTransmissionCoefficient theta_i =
     Some (Spec.r theta_i, Spec.t theta_i) /\
   reflectanceAndTransmittance theta_i =
     Some (Spec.refl theta_i, Spec.trans theta_i)) /\
  (Spec.alpha theta_i + Spec.beta = 0 ->
   reflectionAndTransmissionCoefficient theta_i = None /\
   reflectanceAndTransmittance theta_i = None).
Proof.
  intros Hcos Hrad.
  pose proof (alphaAndBeta_some _ Hcos Hrad) as Hab.
  split; [exact Hab | split].
  - intros Hsum. split.
    + exact (coefficients_some _ _ _ Hab Hsum).
    + exact (powers_some _ _ _ Hab Hsum).
  - intros Hsum. exact (coefficients_none _ _ _ Hab Hsum).
Qed.

(** The hypotheses of C1 hold at normal incidence. *)
Lemma evaluator_computes_spec_formulas_witness :
  cos 0 <> 0 /\ 0 <= radicand n_1 n_2 0 /\
  alphaAndBeta 0 = Some (Spec.alpha 0, Spec.beta) /\
  (Spec.alpha 0 + Spec.beta <> 0 ->
   reflectionAndTransmissionCoefficient 0 = Some (Spec.r 0, Spec.t 0) /\
   reflectanceAndTransmittance 0 = Some (Spec.refl 0, Spec.trans 0)) /\
  (Spec.alpha 0 + Spec.beta = 0 ->
   reflectionAndTransmissionCoefficient 0 = None /\
   reflectanceAndTransmittance 0 = None).
Proof.
  assert (Hc : cos 0 <> 0) by (rewrite cos_0; lra).
  assert (Hr : 0 <= radicand n_1 n_2 0) by (rewrite radicand_0; lra).
  split; [exact Hc | split; [exact Hr |]].
  exact (evaluator_computes_spec_formulas 0 Hc Hr).
Defined.





(** C3.  For every angle strictly between 0 and [PI/2] both functions
    return a value, and the reflectance is the square of the reflection
    coefficient. *)
Theorem reflectance_is_reflection_coefficient_squared (theta_i : R) :
  0 < theta_i < PI / 2 ->
  exists r t Rf Tr : R,
    reflectionAndTransmissionCoefficient theta_i = Some (r, t) /\
    reflectanceAndTransmittance theta_i = Some (Rf, Tr) /\
    Rf = r ^ 2.
Proof.
  intros [Hlo Hhi].
  assert (Hth : - (PI / 2) < theta_i < PI / 2) by (split; lra).
  destruct (evaluator_acute _ Hth) as [Hab Hsum].
  apply Rgt_not_eq in Hsum.
  do 4 eexists. split; [| split].
  - exact (coefficients_some _ _ _ Hab Hsum).
  - exact (powers_some _ _ _ Hab Hsum).
  - reflexivity.
Qed.

(** The hypothesis of C3 holds at 45 degrees. *)
Lemma reflectance_is_reflection_coefficient_squared_witness :
  0 < PI / 4 < PI / 2 /\
  exists r t Rf Tr : R,
    reflectionAndTransmissionCoefficient (PI / 4) = Some (r, t) /\
    reflectanceAndTransmittance (PI / 4) = Some (Rf, Tr) /\
    Rf = r ^ 2.
Proof.
  assert (H : 0 < PI / 4 < PI / 2) by (pose proof PI_RGT_0; split; lra).
  split; [exact H |].
  exact (reflectance_is_reflection_coefficient_squared (PI / 4) H).
Defined.

(** C4.  At Brewster's angle [arctan(n_2/n_1)] the reflection coefficient
    and the reflectance are both exactly zero (the transmission
    coefficient is [2/3] and the transmittance is 1). *)
Theorem brewster_angle_no_reflection :
  reflectionAndTransmissionCoefficient (Np.arctan (n_2 / n_1)) =
    Some (0, 2 / 3) /\
  reflectanceAndTransmittance (Np.arctan (n_2 / n_1)) = Some (0, 1).
Proof.
  pose proof alphaAndBeta_brewster as Hab.
  assert (Hsum : 3 / 2 + 3 / 2 <> 0) by lra.
  split.
  - rewrite (coefficients_some _ _ _ Hab Hsum). f_equal. f_equal; field.
  - rewrite (powers_some _ _ _ Hab Hsum). f_equal. f_equal; field.
Qed.

(** C5, as stated: at normal incidence the evaluator would return
    [alpha = 1.5], [beta = 1.5], [r = 0], [t = 2/3], [R = 0] and a
    transmittance within [1/100] of 1.  It does not. *)
Lemma normal_incidence_stated_values_refuted :
  ~ (exists Tr : R,
       alphaAndBeta 0 = Some (3 / 2, 3 / 2) /\
       reflectionAndTransmissionCoefficient 0 = Some (0, 2 / 3) /\
       reflectanceAndTransmittance 0 = Some (0, Tr) /\
       Rabs (Tr - 1) <= 1 / 100).
Proof.
  intros [Tr [Hab _]]. rewrite alphaAndBeta_0 in Hab.
  injection Hab as Ha. lra.
Qed.

(** C5, amended.  At normal incidence the evaluator returns [alpha = 1],
    [beta = 1.5], [r = -0.2], [t = 0.8], [R = 0.04] and [T = 0.96]. *)
Theorem normal_incidence_values :
  alphaAndBeta 0 = Some (1, 3 / 2) /\
  reflectionAndTransmissionCoefficient 0 = Some (- (1 / 5), 4 / 5) /\
  reflectanceAndTransmittance 0 = Some (1 / 25, 24 / 25).
Proof.
  pose proof alphaAndBeta_0 as Hab.
  assert (Hsum : 1 + 3 / 2 <> 0) by lra.
  split; [exact Hab | split].
  - rewrite (coefficients_some _ _ _ Hab Hsum). f_equal. f_equal; field.
  - rewrite (powers_some _ _ _ Hab Hsum). f_equal. f_equal; field.
Qed.

(** C7.  For refractive indices [0 < n1 < n2], the script's [n_1], [n_2]
    among them, the radicand is nonnegative at every angle from 0 to 90
    degrees, so the square root of [alphaAndBeta] has a real value there. *)
Theorem radicand_nonnegative (n1 n2 theta_i : R) :
  0 < n1 -> n1 < n2 ->
  0 <= theta_i <= PI / 2 ->
  0 <= radicand n1 n2 theta_i /\
  Np.sqrt (radicand n1 n2 theta_i) = Some (sqrt (radicand n1 n2 theta_i)).
Proof.
  intros H1 H12 _.
  pose proof (radicand_general_nonneg n1 n2 theta_i H1 H12) as H.
  split; [exact H | exact (np_sqrt_some _ H)].
Qed.

(** The hypotheses of C7 hold for the script's indices at 90 degrees. *)
Lemma radicand_nonnegative_witness :
  0 < n_1 /\ n_1 < n_2 /\ 0 <= PI / 2 <= PI / 2 /\
  0 <= radicand n_1 n_2 (PI / 2) /\
  Np.sqrt (1 - ((n_1 / n_2) * sin (PI / 2)) ^ 2) =
    Some (sqrt (radicand n_1 n_2 (PI / 2))).
Proof.
  assert (H1 : 0 < n_1) by (unfold n_1; lra).
  assert (H2 : n_1 < n_2) by (unfold n_1, n_2; lra).
  assert (H3 : 0 <= PI / 2 <= PI / 2) by (pose proof PI_RGT_0; split; lra).
  split; [exact H1 | split; [exact H2 | split; [exact H3 |]]].
  exact (radicand_nonnegative n_1 n_2 (PI / 2) H1 H2 H3).
Defined.

(** C6.  The grid has 100 angles; the [k]-th is [k * 100/99] degrees in
    radians, so the grid starts at 0 degrees, ends at 100 degrees, is evenly
    spaced (neighbours are [100/99] degrees apart) and strictly ascending.  Each of the four sampled curves has
    100 entries, the [k]-th being the evaluator's result at the [k]-th grid
    angle. *)
Theorem sample_grid_and_curves :
  length theta_range = 100%nat /\
  nth_error theta_range 0 = Some (Np.radians 0) /\
  nth_error theta_range 99 = Some (Np.radians 100) /\
  (forall k : nat, (k < 100)%nat ->
     nth_error theta_range k = Some (Np.radians (INR k * (100 / 99)))) /\
  (forall (k : nat) (x y : R),
     nth_error theta_range k = Some x ->
     nth_error theta_range (S k) = Some y ->
     Np.degrees y - Np.degrees x = 100 / 99) /\
  (forall (i j : nat) (x y : R), (i < j)%nat ->
     nth_error theta_range i = Some x ->
     nth_error theta_range j = Some y -> x < y) /\
  (length reflection_coefficient = 100%nat /\
   length transmission_coefficient = 100%nat /\
   length reflectance = 100%nat /\
   length transmittance = 100%nat) /\
  (forall (k : nat) (theta : R), nth_error theta_range k = Some theta ->
     nth_error reflection_coefficient k =
       Some (option_map fst (reflectionAndTransmissionCoefficient theta)) /\
     nth_error transmission_coefficient k =
       Some (option_map snd (reflectionAndTransmissionCoefficient theta)) /\
     nth_error reflectance k =
       Some (option_map fst (reflectanceAndTransmittance theta)) /\
     nth_error transmittance k =
       Some (option_map snd (reflectanceAndTransmittance theta))).
Proof.
  assert (Hlen : length theta_range = 100%nat).
  { rewrite theta_range_samples, length_map, length_seq. reflexivity. }
  assert (Hin : forall (k : nat) (x : R),
             nth_error theta_range k = Some x ->
             (k < 100)%nat /\ x = Spec.sample k).
  { intros k x Hx.
    assert (Hk : (k < 100)%nat).
    { rewrite <- Hlen. apply nth_error_Some. congruence. }
    rewrite (theta_range_nth k Hk) in Hx. split; [exact Hk | congruence]. }
  split; [exact Hlen |].
  split.
  { rewrite theta_range_nth by lia. unfold Spec.sample. do 2 f_equal.
    cbn [INR]. ring. }
  split.
  { rewrite theta_range_nth by lia. unfold Spec.sample. do 2 f_equal.
    rewrite INR_IZR_INZ. cbn [Z.of_nat Pos.of_succ_nat Pos.succ]. field. }
  split; [exact theta_range_nth |].
  split.
  { intros k x y Hx Hy.
    destruct (Hin _ _ Hx) as [_ ->]. destruct (Hin _ _ Hy) as [_ ->].
    unfold Spec.sample. rewrite !degrees_radians, S_INR. field. }
  split.
  { intros i j x y Hij Hx Hy.
    destruct (Hin _ _ Hx) as [_ ->]. destruct (Hin _ _ Hy) as [_ ->].
    exact (sample_lt i j Hij). }
  split.
  { unfold reflection_coefficient, transmission_coefficient,
      reflectance, transmittance.
    rewrite !length_map. repeat split; exact Hlen. }
  intros k theta Hk.
  unfold reflection_coefficient, transmission_coefficient,
    reflectance, transmittance.
  rewrite !nth_error_map, Hk. repeat split; reflexivity.
Qed.

(** C10.  Every grid angle is [k * 100/99] degrees for some [k < 100] and
    none is 90 degrees; at every grid angle the cosine is nonzero; at every real angle the radicand is at least [5/9]; and every
    entry of the four sampled curves is a real number, the ten samples
    past 90 degrees included: no division by zero and no square root of a
    negative number occurs in the run. *)
Theorem evaluation_total_on_grid :
  Forall (fun theta =>
            (exists k : nat, (k < 100)%nat /\
                             Np.degrees theta = INR k * (100 / 99)) /\
            Np.degrees theta <> 90 /\ cos theta <> 0) theta_range /\
  (forall theta : R, 5 / 9 <= radicand n_1 n_2 theta) /\
  Forall (fun v => exists x : R, v = Some x) reflection_coefficient /\
  Forall (fun v => exists x : R, v = Some x) transmission_coefficient /\
  Forall (fun v => exists x : R, v = Some x) reflectance /\
  Forall (fun v => exists x : R, v = Some x) transmittance.
Proof.
  assert (Hgrid : forall P : R -> Prop,
             (forall k : nat, (k < 100)%nat -> P (Spec.sample k)) ->
             Forall P theta_range).
  { intros P HP. rewrite theta_range_samples. apply Forall_map.
    apply Forall_forall. intros k Hk. apply in_seq in Hk. apply HP. lia. }
  split.
  { apply Hgrid. intros k Hk.
    destruct (evaluator_on_sample k Hk) as [Hcos _].
    split.
    { exists k. split; [exact Hk |]. unfold Spec.sample.
      apply degrees_radians. }
    split; [| exact Hcos].
    intros Hdeg. apply Hcos. unfold Np.degrees in Hdeg.
    pose proof PI_RGT_0 as Hpi.
    replace (Spec.sample k) with (PI / 2); [apply cos_PI2 |].
    apply (Rmult_eq_reg_r (180 / PI)).
    - rewrite Hdeg. field. lra.
    - apply Rgt_not_eq. apply Rdiv_lt_0_compat; lra. }
  split; [exact radicand_lower_bound |].
  unfold reflection_coefficient, transmission_coefficient,
    reflectance, transmittance.
  repeat split; apply Forall_map, Hgrid; intros k Hk;
    destruct (evaluator_on_sample k Hk) as [_ [Hab Hsum]].
  - rewrite (coefficients_some _ _ _ Hab Hsum). eexists. reflexivity.
  - rewrite (coefficients_some _ _ _ Hab Hsum). eexists. reflexivity.
  - rewrite (powers_some _ _ _ Hab Hsum). eexists. reflexivity.
  - rewrite (powers_some _ _ _ Hab Hsum). eexists. reflexivity.
Qed.

(** C8.  [theta_brewster] is the arctangent of 1.5 converted to degrees,
    and lies between 56.3099 and 56.31 degrees. *)
Theorem theta_brewster_value :
  theta_brewster = Np.degrees (atan (3 / 2)) /\
  563099 / 10000 < theta_brewster < 5631 / 100.
Proof.
  split.
  - rewrite theta_brewster_unfold. reflexivity.
  - exact theta_brewster_bounds.
Qed.

(** C9.  Brewster's angle rounds to 56.31 at three decimals, and
    [ticks_x] is the ascending list 0, 10, 20, 30, 40, 56.31, 70, 80: the
    multiples of 10 below 90 and the rounded Brewster angle, 50 and 60
    removed. *)
Theorem ticks_x_value :
  Np.round [theta_brewster] 3 = [5631 / 100] /\
  ticks_x = [0; 10; 20; 30; 40; 5631 / 100; 70; 80].
Proof.
  split; [exact round_theta_brewster |].
  unfold ticks_x, Np.setdiff1d, Np.append, Np.unique, Np.sort.
  rewrite round_theta_brewster, arange_ticks.
  cbn [map app fold_right].
  sort_numerals. dedup_numerals.
  cbn [filter]. isin_numerals.
  reflexivity.
Qed.

(** * Further properties of the evaluator *)

(** ** Where the evaluator has a value *)

Lemma alphaAndBeta_defined (theta_i : R) :
  cos theta_i <> 0 ->
  alphaAndBeta theta_i = Some (Spec.alpha theta_i, 3 / 2).
Proof.
  intros Hcos.
  rewrite (alphaAndBeta_some _ Hcos (Rlt_le _ _ (radicand_pos theta_i))).
  unfold Spec.beta. rewrite beta_val. reflexivity.
Qed.

Lemma alphaAndBeta_undefined (theta_i : R) :
  cos theta_i = 0 -> alphaAndBeta theta_i = None.
Proof.
  intros Hcos. unfold alphaAndBeta.
  pose proof (radicand_pos theta_i) as Hrad. unfold radicand in Hrad.
  rewrite (np_sqrt_some _ (Rlt_le _ _ Hrad)). cbn [bind].
  rewrite (np_div_none _ _ Hcos). reflexivity.
Qed.

Lemma alpha_cos_pos (theta_i : R) :
  cos theta_i <> 0 -> 0 < Spec.alpha theta_i * cos theta_i.
Proof.
  intros Hcos. unfold Spec.alpha. fold (radicand n_1 n_2 theta_i).
  replace (sqrt (radicand n_1 n_2 theta_i) / cos theta_i * cos theta_i)
    with (sqrt (radicand n_1 n_2 theta_i)) by (field; exact Hcos).
  apply sqrt_lt_R0, radicand_pos.
Qed.

Lemma alpha_sqr_cos_sqr (theta_i : R) :
  cos theta_i <> 0 ->
  Spec.alpha theta_i ^ 2 * cos theta_i ^ 2 = 5 / 9 + 4 / 9 * cos theta_i ^ 2.
Proof.
  intros Hcos. pose proof (alpha_times_cos _ Hcos) as Hsq.
  unfold radicand in Hsq. rewrite ratio_val in Hsq.
  pose proof (sin2_cos2 theta_i) as Hpyth. unfold Rsqr in Hpyth.
  nra.
Qed.

Lemma alpha_neg_of_cos_neg (theta_i : R) :
  cos theta_i < 0 -> Spec.alpha theta_i < 0.
Proof.
  intros Hneg. assert (Hcos : cos theta_i <> 0) by lra.
  pose proof (alpha_cos_pos _ Hcos). nra.
Qed.

Lemma alpha_pos_of_cos_pos (theta_i : R) :
  0 < cos theta_i -> 0 < Spec.alpha theta_i.
Proof.
  intros Hpos. assert (Hcos : cos theta_i <> 0) by lra.
  pose proof (alpha_cos_pos _ Hcos). nra.
Qed.

(** [alpha + beta] vanishes exactly where the cosine is [-2/sqrt 13]. *)
Lemma alpha_plus_beta_zero_iff (theta_i : R) :
  cos theta_i <> 0 ->
  Spec.alpha theta_i + 3 / 2 = 0 <->
  cos theta_i < 0 /\ cos theta_i ^ 2 = 4 / 13.
Proof.
  intros Hcos. pose proof (alpha_sqr_cos_sqr _ Hcos) as Hsq.
  pose proof (alpha_cos_pos _ Hcos) as Hpos.
  split.
  - intros Hsum.
    assert (Ha : Spec.alpha theta_i = - (3 / 2)) by lra.
    rewrite Ha in Hsq, Hpos. split; nra.
  - intros [Hneg Hc2]. rewrite Hc2 in Hsq.
    assert (Ha2 : Spec.alpha theta_i ^ 2 = 9 / 4) by lra.
    pose proof (alpha_neg_of_cos_neg _ Hneg). nra.
Qed.

(** X1.  [alphaAndBeta] has no value exactly at the angles whose cosine
    is zero: with the script's indices the square root never fails, only
    the division by the cosine can. *)
Theorem alphaAndBeta_none_iff (theta_i : R) :
  alphaAndBeta theta_i = None <-> cos theta_i = 0.
Proof.
  split.
  - intros Hnone. destruct (Req_dec (cos theta_i) 0) as [Hz | Hnz].
    + exact Hz.
    + rewrite (alphaAndBeta_defined _ Hnz) in Hnone. discriminate.
  - exact (alphaAndBeta_undefined theta_i).
Qed.

(** ** Symmetries *)

Lemma alphaAndBeta_even (theta_i : R) :
  alphaAndBeta (- theta_i) = alphaAndBeta theta_i.
Proof.
  unfold alphaAndBeta. rewrite sin_neg, cos_neg.
  replace ((n_1 / n_2 * - sin theta_i) ^ 2)
    with ((n_1 / n_2 * sin theta_i) ^ 2) by ring.
  reflexivity.
Qed.

Lemma alphaAndBeta_periodic (theta_i : R) :
  alphaAndBeta (theta_i + 2 * PI) = alphaAndBeta theta_i.
Proof.
  unfold alphaAndBeta.
  replace (theta_i + 2 * PI) with (theta_i + 2 * INR 1 * PI)
    by (cbn [INR]; ring).
  rewrite sin_period, cos_period. reflexivity.
Qed.

(** X3.  The three functions are even and have period [2 * PI] in the
    angle of incidence, at the angles without a value too. *)
Theorem evaluator_even_periodic (theta_i : R) :
  (alphaAndBeta (- theta_i) = alphaAndBeta theta_i /\
   reflectionAndTransmissionCoefficient (- theta_i) =
     reflectionAndTransmissionCoefficient theta_i /\
   reflectanceAndTransmittance (- theta_i) =
     reflectanceAndTransmittance theta_i) /\
  (alphaAndBeta (theta_i + 2 * PI) = alphaAndBeta theta_i /\
   reflectionAndTransmissionCoefficient (theta_i + 2 * PI) =
     reflectionAndTransmissionCoefficient theta_i /\
   reflectanceAndTransmittance (theta_i + 2 * PI) =
     reflectanceAndTransmittance theta_i).
Proof.
  unfold reflectionAndTransmissionCoefficient, reflectanceAndTransmittance.
  rewrite alphaAndBeta_even, alphaAndBeta_periodic.
  repeat split; reflexivity.
Qed.

(** ** Acute angles: bounds and monotonicity *)

Lemma cos_pos_acute (theta_i : R) :
  0 <= theta_i < PI / 2 -> 0 < cos theta_i.
Proof. intros [H0 H1]. pose proof PI_RGT_0. apply cos_gt_0; lra. Qed.

Lemma alpha_ge_1_acute (theta_i : R) :
  0 <= theta_i < PI / 2 -> 1 <= Spec.alpha theta_i.
Proof.
  intros Hth. pose proof (cos_pos_acute _ Hth) as Hc.
  assert (Hcos : cos theta_i <> 0) by lra.
  pose proof (alpha_sqr_cos_sqr _ Hcos) as Hsq.
  pose proof (alpha_pos_of_cos_pos _ Hc) as Ha.
  pose proof (COS_bound theta_i) as [_ Hc1].
  destruct (Rle_lt_dec 1 (Spec.alpha theta_i)) as [Hge | Hlt]; [exact Hge |].
  exfalso.
  assert (Ha2 : Spec.alpha theta_i ^ 2 < 1) by nra.
  assert (Hc2 : 0 < cos theta_i ^ 2 <= 1) by nra.
  nra.
Qed.

Lemma alpha_increasing_acute (x y : R) :
  0 <= x -> x < y -> y < PI / 2 ->
  Spec.alpha x < Spec.alpha y.
Proof.
  intros Hx Hxy Hy. pose proof PI_RGT_0 as Hpi.
  assert (Hcx : 0 < cos x) by (apply cos_pos_acute; lra).
  assert (Hcy : 0 < cos y) by (apply cos_pos_acute; lra).
  assert (Hdec : cos y < cos x) by (apply cos_decreasing_1; lra).
  assert (Hnx : cos x <> 0) by lra. assert (Hny : cos y <> 0) by lra.
  pose proof (alpha_sqr_cos_sqr _ Hnx) as Hsx.
  pose proof (alpha_sqr_cos_sqr _ Hny) as Hsy.
  pose proof (alpha_pos_of_cos_pos _ Hcx) as Hax.
  pose proof (alpha_pos_of_cos_pos _ Hcy) as Hay.
  destruct (Rlt_le_dec (Spec.alpha x) (Spec.alpha y)) as [Hlt | Hge];
    [exact Hlt | exfalso].
  (* alpha y <= alpha x and cos y < cos x contradict the two equations *)
  assert (Hc2 : cos y ^ 2 < cos x ^ 2) by nra.
  assert (Ha2 : Spec.alpha y ^ 2 <= Spec.alpha x ^ 2) by nra.
  assert (Hux : (Spec.alpha x ^ 2 - 4 / 9) * cos x ^ 2 = 5 / 9) by lra.
  assert (Huy : (Spec.alpha y ^ 2 - 4 / 9) * cos y ^ 2 = 5 / 9) by lra.
  assert (Hpos : 0 < Spec.alpha y ^ 2 - 4 / 9).
  { assert (0 < cos y ^ 2) by nra. nra. }
  nra.
Qed.

(** The reflection and transmission coefficients as functions of
    [alpha], for [alpha + 3/2 > 0]. *)
Lemma quotient_r_bounds (a : R) :
  1 <= a -> - (1 / 5) <= (a - 3 / 2) / (a + 3 / 2) < 1.
Proof.
  intros Ha. assert (Hd : 0 < a + 3 / 2) by lra.
  assert (Hq : (a - 3 / 2) / (a + 3 / 2) * (a + 3 / 2) = a - 3 / 2)
    by (field; lra).
  split; nra.
Qed.

Lemma quotient_t_bounds (a : R) :
  1 <= a -> 0 < 2 / (a + 3 / 2) <= 4 / 5.
Proof.
  intros Ha. assert (Hd : 0 < a + 3 / 2) by lra.
  assert (Hq : 2 / (a + 3 / 2) * (a + 3 / 2) = 2) by (field; lra).
  split; nra.
Qed.

Lemma quotient_r_increasing (a a' : R) :
  0 < a -> a < a' ->
  (a - 3 / 2) / (a + 3 / 2) < (a' - 3 / 2) / (a' + 3 / 2).
Proof.
  intros Ha Haa'.
  apply Rlt_0_minus.
  replace ((a' - 3 / 2) / (a' + 3 / 2) - (a - 3 / 2) / (a + 3 / 2))
    with (3 * (a' - a) / ((a' + 3 / 2) * (a + 3 / 2))) by (field; lra).
  apply Rdiv_lt_0_compat; nra.
Qed.

Lemma quotient_t_decreasing (a a' : R) :
  0 < a -> a < a' -> 2 / (a' + 3 / 2) < 2 / (a + 3 / 2).
Proof.
  intros Ha Haa'.
  apply Rlt_0_minus.
  replace (2 / (a + 3 / 2) - 2 / (a' + 3 / 2))
    with (2 * (a' - a) / ((a' + 3 / 2) * (a + 3 / 2))) by (field; lra).
  apply Rdiv_lt_0_compat; nra.
Qed.

Lemma evaluator_acute_values (theta_i : R) :
  0 <= theta_i < PI / 2 ->
  alphaAndBeta theta_i = Some (Spec.alpha theta_i, 3 / 2) /\
  reflectionAndTransmissionCoefficient theta_i =
    Some ((Spec.alpha theta_i - 3 / 2) / (Spec.alpha theta_i + 3 / 2),
          2 / (Spec.alpha theta_i + 3 / 2)) /\
  reflectanceAndTransmittance theta_i =
    Some (((Spec.alpha theta_i - 3 / 2) / (Spec.alpha theta_i + 3 / 2)) ^ 2,
          Spec.alpha theta_i * (3 / 2) * (2 / (Spec.alpha theta_i + 3 / 2)) ^ 2).
Proof.
  intros Hth. pose proof (cos_pos_acute _ Hth) as Hc.
  assert (Hcos : cos theta_i <> 0) by lra.
  pose proof (alphaAndBeta_defined _ Hcos) as Hab.
  pose proof (alpha_ge_1_acute _ Hth) as Ha.
  assert (Hsum : Spec.alpha theta_i + 3 / 2 <> 0) by lra.
  split; [exact Hab | split].
  - exact (coefficients_some _ _ _ Hab Hsum).
  - exact (powers_some _ _ _ Hab Hsum).
Qed.



(** ** Brewster's angle as the only zero *)

Lemma atan_three_halves_acute : 0 < atan (3 / 2) < PI / 2.
Proof.
  pose proof (atan_bound (3 / 2)) as [_ Hub].
  assert (0 < atan (3 / 2)) by (rewrite <- atan_0; apply atan_increasing; lra).
  split; lra.
Qed.

Lemma alpha_vs_beta_acute (theta_i : R) :
  0 <= theta_i < PI / 2 ->
  (Spec.alpha theta_i < 3 / 2 <-> theta_i < atan (3 / 2)) /\
  (Spec.alpha theta_i = 3 / 2 <-> theta_i = atan (3 / 2)) /\
  (3 / 2 < Spec.alpha theta_i <-> atan (3 / 2) < theta_i).
Proof.
  intros [H0 H1]. pose proof atan_three_halves_acute as [Hb0 Hb1].
  pose proof alpha_brewster as Hab.
  destruct (Rtotal_order theta_i (atan (3 / 2))) as [Hlt | [Heq | Hgt]].
  - pose proof (alpha_increasing_acute _ _ H0 Hlt Hb1) as Hinc.
    rewrite Hab in Hinc. repeat split; intros; lra.
  - subst theta_i. rewrite Hab. repeat split; intros; lra.
  - assert (Hb0' : 0 <= atan (3 / 2)) by lra.
    pose proof (alpha_increasing_acute _ _ Hb0' Hgt H1) as Hinc.
    rewrite Hab in Hinc. repeat split; intros; lra.
Qed.



(** ** Beyond 90 degrees *)

Lemma powers_obtuse (theta_i : R) :
  cos theta_i < 0 -> cos theta_i ^ 2 <> 4 / 13 ->
  Spec.alpha theta_i < 0 /\ Spec.alpha theta_i + 3 / 2 <> 0 /\
  reflectionAndTransmissionCoefficient theta_i =
    Some ((Spec.alpha theta_i - 3 / 2) / (Spec.alpha theta_i + 3 / 2),
          2 / (Spec.alpha theta_i + 3 / 2)) /\
  reflectanceAndTransmittance theta_i =
    Some (((Spec.alpha theta_i - 3 / 2) / (Spec.alpha theta_i + 3 / 2)) ^ 2,
          Spec.alpha theta_i * (3 / 2) * (2 / (Spec.alpha theta_i + 3 / 2)) ^ 2).
Proof.
  intros Hneg Hc2. assert (Hcos : cos theta_i <> 0) by lra.
  pose proof (alphaAndBeta_defined _ Hcos) as Hab.
  assert (Hsum : Spec.alpha theta_i + 3 / 2 <> 0).
  { intros Hz. apply (alpha_plus_beta_zero_iff _ Hcos) in Hz. tauto. }
  split; [exact (alpha_neg_of_cos_neg _ Hneg) | split; [exact Hsum | split]].
  - exact (coefficients_some _ _ _ Hab Hsum).
  - exact (powers_some _ _ _ Hab Hsum).
Qed.

Lemma transmittance_negative (a : R) :
  a < 0 -> a + 3 / 2 <> 0 ->
  a * (3 / 2) * (2 / (a + 3 / 2)) ^ 2 < 0 /\
  1 < ((a - 3 / 2) / (a + 3 / 2)) ^ 2.
Proof.
  intros Ha Hsum.
  assert (HT : ((a - 3 / 2) / (a + 3 / 2)) ^ 2
               = 1 - a * (3 / 2) * (2 / (a + 3 / 2)) ^ 2) by (field; lra).
  assert (Ht : 2 / (a + 3 / 2) * (a + 3 / 2) = 2) by (field; lra).
  assert (Hpos : 0 < (2 / (a + 3 / 2)) ^ 2).
  { assert (2 / (a + 3 / 2) <> 0) by (intros Hz; rewrite Hz in Ht; lra).
    nra. }
  split; [nra | rewrite HT; nra].
Qed.

(** ** The sampled curves *)

Lemma sample_degrees (k : nat) :
  Np.degrees (Spec.sample k) = INR k * (100 / 99).
Proof. unfold Spec.sample. apply degrees_radians. Qed.

Lemma radians_lt (x y : R) : x < y -> Np.radians x < Np.radians y.
Proof. intros H. unfold Np.radians. pose proof PI_RGT_0. nra. Qed.

Lemma theta_brewster_radians : Np.radians theta_brewster = atan (3 / 2).
Proof.
  rewrite theta_brewster_unfold. unfold Np.radians.
  pose proof PI_RGT_0. field. lra.
Qed.

(** Brewster's angle falls strictly between the samples 55 and 56. *)
Lemma sample_below_brewster (k : nat) :
  (k <= 55)%nat -> 0 <= Spec.sample k < atan (3 / 2).
Proof.
  intros Hk. pose proof (INR_le_const k 55 Hk) as Hub. cbn in Hub.
  pose proof (pos_INR k) as Hlb. pose proof PI_RGT_0 as Hpi.
  split.
  - unfold Spec.sample, Np.radians. nra.
  - rewrite <- theta_brewster_radians. unfold Spec.sample.
    apply radians_lt. pose proof theta_brewster_bounds. nra.
Qed.

Lemma sample_above_brewster (k : nat) :
  (56 <= k <= 89)%nat -> atan (3 / 2) < Spec.sample k < PI / 2.
Proof.
  intros [Hlo Hhi]. pose proof (INR_ge_const k 56 Hlo) as Hlb. cbn in Hlb.
  split.
  - rewrite <- theta_brewster_radians. unfold Spec.sample.
    apply radians_lt. pose proof theta_brewster_bounds. nra.
  - apply sample_acute. exact Hhi.
Qed.

Lemma sample_cos_past_right_angle (k : nat) :
  (90 <= k < 100)%nat ->
  cos (Spec.sample k) < 0 /\ cos (Spec.sample k) ^ 2 <> 4 / 13.
Proof.
  intros Hk.
  destruct (cos_small_past_right_angle _ (sample_obtuse k Hk)) as [Hneg Hsq].
  split; [exact Hneg | lra].
Qed.

Lemma curves_nth (k : nat) :
  (k < 100)%nat ->
  nth_error reflection_coefficient k =
    Some (option_map fst (reflectionAndTransmissionCoefficient (Spec.sample k))) /\
  nth_error transmission_coefficient k =
    Some (option_map snd (reflectionAndTransmissionCoefficient (Spec.sample k))) /\
  nth_error reflectance k =
    Some (option_map fst (reflectanceAndTransmittance (Spec.sample k))) /\
  nth_error transmittance k =
    Some (option_map snd (reflectanceAndTransmittance (Spec.sample k))).
Proof.
  intros Hk.
  unfold reflection_coefficient, transmission_coefficient,
    reflectance, transmittance.
  rewrite !nth_error_map, (theta_range_nth k Hk). repeat split; reflexivity.
Qed.

(** X9.  The sampled reflectance and transmittance: on the 90 samples
    below 90 degrees both lie strictly between 0 and 1 (no sample hits
    Brewster's angle, so the plotted reflectance never reaches 0); the last
    ten samples lie past 90 degrees, with a reflectance above 1 and a
    negative transmittance. *)
Theorem sampled_powers (k : nat) :
  (k < 100)%nat ->
  exists theta Rf Tr : R,
    nth_error theta_range k = Some theta /\
    nth_error reflectance k = Some (Some Rf) /\
    nth_error transmittance k = Some (Some Tr) /\
    ((k <= 89)%nat -> Np.degrees theta < 90 /\ 0 < Rf < 1 /\ 0 < Tr < 1) /\
    ((90 <= k)%nat -> 90 < Np.degrees theta /\ 1 < Rf /\ Tr < 0).
Proof.
  intros Hk. destruct (curves_nth k Hk) as [_ [_ [HR HT]]].
  exists (Spec.sample k).
  destruct (evaluator_on_sample k Hk) as [_ [Hab Hsum]].
  pose proof (powers_some _ _ _ Hab Hsum) as Hpw.
  rewrite Hpw in HR, HT. cbn [option_map fst snd] in HR, HT.
  do 2 eexists.
  split; [exact (theta_range_nth k Hk) | split; [exact HR | split; [exact HT |]]].
  split.
  - intros Hlow.
    assert (Hth : 0 <= Spec.sample k < PI / 2) by exact (sample_acute k Hlow).
    pose proof (alpha_ge_1_acute _ Hth) as Ha.
    destruct (alpha_vs_beta_acute _ Hth) as [_ [Heq _]].
    assert (Hne : Spec.alpha (Spec.sample k) <> 3 / 2).
    { intros He. apply Heq in He.
      destruct (Nat.le_gt_cases k 55) as [H55 | H56].
      - pose proof (sample_below_brewster k H55). lra.
      - assert (Hr : (56 <= k <= 89)%nat) by lia.
        pose proof (sample_above_brewster k Hr). lra. }
    split.
    { rewrite sample_degrees. pose proof (INR_le_const k 89 Hlow) as Hub.
      cbn in Hub. lra. }
    unfold Spec.beta in *. rewrite beta_val in *.
    set (a := Spec.alpha (Spec.sample k)) in *.
    assert (Hq : (a - 3 / 2) / (a + 3 / 2) * (a + 3 / 2) = a - 3 / 2)
      by (field; lra).
    assert (HTr : a * (3 / 2) * (2 / (a + 3 / 2)) ^ 2
                  = 1 - ((a - 3 / 2) / (a + 3 / 2)) ^ 2) by (field; lra).
    rewrite HTr.
    pose proof (quotient_r_bounds _ Ha) as Hrb.
    assert (Hrne : (a - 3 / 2) / (a + 3 / 2) <> 0).
    { intros Hz. rewrite Hz in Hq. lra. }
    set (r := (a - 3 / 2) / (a + 3 / 2)) in *.
    assert (0 < r ^ 2) by nra. assert (r ^ 2 < 1) by nra.
    repeat split; lra.
  - intros Hhigh. assert (Hr : (90 <= k < 100)%nat) by lia.
    destruct (sample_cos_past_right_angle k Hr) as [Hneg Hc2].
    destruct (powers_obtuse _ Hneg Hc2) as [Ha [Hs _]].
    destruct (transmittance_negative _ Ha Hs) as [HTneg HRbig].
    unfold Spec.beta in *. rewrite beta_val in *.
    split; [| split; assumption].
    rewrite sample_degrees. pose proof (INR_ge_const k 90 Hhigh) as Hlb.
    cbn in Hlb. lra.
Qed.

(** The hypothesis of X9 holds for the sample 95. *)
Lemma sampled_powers_witness :
  (95 < 100)%nat /\
  exists theta Rf Tr : R,
    nth_error theta_range 95 = Some theta /\
    nth_error reflectance 95 = Some (Some Rf) /\
    nth_error transmittance 95 = Some (Some Tr) /\
    ((95 <= 89)%nat -> Np.degrees theta < 90 /\ 0 < Rf < 1 /\ 0 < Tr < 1) /\
    ((90 <= 95)%nat -> 90 < Np.degrees theta /\ 1 < Rf /\ Tr < 0).
Proof.
  assert (H : (95 < 100)%nat) by lia.
  split; [exact H |].
  exact (sampled_powers 95 H).
Defined.

Lemma alpha_below_minus_beta (theta_i : R) :
  cos theta_i < 0 -> cos theta_i ^ 2 < 4 / 13 ->
  Spec.alpha theta_i < - (3 / 2).
Proof.
  intros Hneg Hc2. assert (Hcos : cos theta_i <> 0) by lra.
  pose proof (alpha_sqr_cos_sqr _ Hcos) as Hsq.
  pose proof (alpha_neg_of_cos_neg _ Hneg) as Ha.
  destruct (Rlt_le_dec (Spec.alpha theta_i) (- (3 / 2))) as [Hlt | Hge];
    [exact Hlt | exfalso].
  assert (Ha2 : Spec.alpha theta_i ^ 2 <= 9 / 4) by nra.
  assert (Hcpos : 0 < cos theta_i ^ 2) by nra.
  nra.
Qed.

Lemma quotients_below_minus_beta (a : R) :
  a < - (3 / 2) -> 1 < (a - 3 / 2) / (a + 3 / 2) /\ 2 / (a + 3 / 2) < 0.
Proof.
  intros Ha.
  assert (Hq : (a - 3 / 2) / (a + 3 / 2) * (a + 3 / 2) = a - 3 / 2)
    by (field; lra).
  assert (Ht : 2 / (a + 3 / 2) * (a + 3 / 2) = 2) by (field; lra).
  split; nra.
Qed.

(** X10.  The sampled coefficients: up to sample 55 the reflection
    coefficient is negative (not below -0.2), from sample 56 to sample 89
    it is positive and below 1, the zero crossing at Brewster's angle
    falling between the two; on these 90 samples the transmission
    coefficient lies in (0, 0.8].  On the last ten samples the reflection
    coefficient exceeds 1 and the transmission coefficient is negative. *)
Theorem sampled_coefficients (k : nat) :
  (k < 100)%nat ->
  exists r t : R,
    nth_error reflection_coefficient k = Some (Some r) /\
    nth_error transmission_coefficient k = Some (Some t) /\
    ((k <= 55)%nat -> - (1 / 5) <= r < 0 /\ 0 < t <= 4 / 5) /\
    ((56 <= k <= 89)%nat -> 0 < r < 1 /\ 0 < t <= 4 / 5) /\
    ((90 <= k)%nat -> 1 < r /\ t < 0).
Proof.
  intros Hk. destruct (curves_nth k Hk) as [Hr [Ht _]].
  destruct (evaluator_on_sample k Hk) as [_ [Hab Hsum]].
  pose proof (coefficients_some _ _ _ Hab Hsum) as Hrt.
  rewrite Hrt in Hr, Ht. cbn [option_map fst snd] in Hr, Ht.
  unfold Spec.beta in *. rewrite beta_val in *.
  do 2 eexists. split; [exact Hr | split; [exact Ht |]].
  set (a := Spec.alpha (Spec.sample k)) in *.
  split; [| split].
  - intros Hlow. assert (Hlow' : (k <= 89)%nat) by lia.
    assert (Hth : 0 <= Spec.sample k < PI / 2) by exact (sample_acute k Hlow').
    pose proof (alpha_ge_1_acute _ Hth) as Ha. fold a in Ha.
    destruct (alpha_vs_beta_acute _ Hth) as [Hlt _]. fold a in Hlt.
    pose proof (sample_below_brewster k Hlow) as [_ Hb].
    apply Hlt in Hb.
    pose proof (quotient_r_bounds _ Ha) as Hrb.
    pose proof (quotient_t_bounds _ Ha) as Htb.
    assert (Hq : (a - 3 / 2) / (a + 3 / 2) * (a + 3 / 2) = a - 3 / 2)
      by (field; lra).
    repeat split; try lra; nra.
  - intros Hmid. assert (Hmid' : (k <= 89)%nat) by lia.
    assert (Hth : 0 <= Spec.sample k < PI / 2) by exact (sample_acute k Hmid').
    pose proof (alpha_ge_1_acute _ Hth) as Ha. fold a in Ha.
    destruct (alpha_vs_beta_acute _ Hth) as [_ [_ Hgt]]. fold a in Hgt.
    pose proof (sample_above_brewster k Hmid) as [Hb _].
    apply Hgt in Hb.
    pose proof (quotient_r_bounds _ Ha) as Hrb.
    pose proof (quotient_t_bounds _ Ha) as Htb.
    assert (Hq : (a - 3 / 2) / (a + 3 / 2) * (a + 3 / 2) = a - 3 / 2)
      by (field; lra).
    repeat split; try lra; nra.
  - intros Hhigh. assert (Hr' : (90 <= k < 100)%nat) by lia.
    destruct (cos_small_past_right_angle _ (sample_obtuse k Hr')) as [Hneg Hsq].
    assert (Hc2 : cos (Spec.sample k) ^ 2 < 4 / 13) by lra.
    pose proof (alpha_below_minus_beta _ Hneg Hc2) as Ha. fold a in Ha.
    exact (quotients_below_minus_beta _ Ha).
Qed.

(** The hypothesis of X10 holds for the sample 56. *)
Lemma sampled_coefficients_witness :
  (56 < 100)%nat /\
  exists r t : R,
    nth_error reflection_coefficient 56 = Some (Some r) /\
    nth_error transmission_coefficient 56 = Some (Some t) /\
    ((56 <= 55)%nat -> - (1 / 5) <= r < 0 /\ 0 < t <= 4 / 5) /\
    ((56 <= 56 <= 89)%nat -> 0 < r < 1 /\ 0 < t <= 4 / 5) /\
    ((90 <= 56)%nat -> 1 < r /\ t < 0).
Proof.
  assert (H : (56 < 100)%nat) by lia.
  split; [exact H |].
  exact (sampled_coefficients 56 H).
Defined.

(** * The NumPy operations in general *)

(** ** [linspace] *)



(** ** [arange] *)

(** X13.  For a positive step, [np.arange(start, stop, step)] holds
    exactly the integers [start + k * step] that are at least [start] and
    strictly below [stop]: the stop value itself is never included, and
    the result is empty when [stop <= start]. *)
Theorem arange_spec (start stop step e : Z) :
  (0 < step)%Z ->
  In e (Np.arange start stop step) <->
  (start <= e < stop)%Z /\ ((e - start) mod step = 0)%Z.
Proof.
  intros Hstep. unfold Np.arange.
  set (q := ((stop - start + step - 1) / step)%Z).
  assert (Hq1 : (step * q <= stop - start + step - 1)%Z)
    by (apply Z.mul_div_le; exact Hstep).
  rewrite in_map_iff. split.
  - intros [k [He Hk]]. apply in_seq in Hk.
    assert (Hkq : (Z.of_nat k < q)%Z) by lia.
    subst e. split; [nia |].
    replace (start + Z.of_nat k * step - start)%Z with (Z.of_nat k * step)%Z
      by ring.
    apply Z.mod_mul. lia.
  - intros [[Hlo Hhi] Hmod].
    assert (Hex : (e - start = step * ((e - start) / step))%Z)
      by (apply Z.div_exact; [lia | exact Hmod]).
    set (m := ((e - start) / step)%Z) in *.
    assert (Hm0 : (0 <= m)%Z) by (apply Z.div_pos; lia).
    assert (Hmq : (m + 1 <= q)%Z).
    { apply Z.div_le_lower_bound; [exact Hstep | nia]. }
    exists (Z.to_nat m). split.
    + rewrite Z2Nat.id by exact Hm0. lia.
    + apply in_seq. lia.
Qed.

(** The hypothesis of X13 holds for the script's call: 80 is a tick. *)
Lemma arange_spec_witness :
  (0 < 10)%Z /\
  (In 80%Z (Np.arange 0 90 10) <->
   (0 <= 80 < 90)%Z /\ ((80 - 0) mod 10 = 0)%Z).
Proof.
  assert (H : (0 < 10)%Z) by lia.
  split; [exact H |].
  exact (arange_spec 0 90 10 80 H).
Defined.

(** ** [rint] and [round] *)

Lemma rint_cases (x : R) :
  let f := Int_part x in
  IZR f <= x < IZR f + 1 /\ (Np.rint x = f \/ Np.rint x = (f + 1)%Z) /\
  (x - IZR f < 1 / 2 -> Np.rint x = f) /\
  (1 / 2 < x - IZR f -> Np.rint x = (f + 1)%Z) /\
  (x - IZR f = 1 / 2 -> Np.rint x = if Z.even f then f else (f + 1)%Z).
Proof.
  intros f. pose proof (base_Int_part x) as [Hle Hgt]. fold f in Hle, Hgt.
  split; [split; lra |].
  unfold Np.rint. fold f.
  destruct (Rlt_dec (x - IZR f) (1 / 2)) as [Hlt | Hnlt].
  - repeat split; auto; intros; lra.
  - destruct (Rlt_dec (1 / 2) (x - IZR f)) as [Hgt' | Hngt].
    + repeat split; auto; intros; lra.
    + repeat split; try (intros; lra).
      destruct (Z.even f); auto.
Qed.

Lemma rint_error (x : R) : Rabs (IZR (Np.rint x) - x) <= 1 / 2.
Proof.
  destruct (rint_cases x) as [[Hlo Hhi] [_ [Hlow [Hhigh Htie]]]].
  destruct (Rtotal_order (x - IZR (Int_part x)) (1 / 2)) as [H | [H | H]].
  - rewrite (Hlow H). apply Rabs_le. lra.
  - rewrite (Htie H).
    destruct (Z.even (Int_part x)); [| rewrite plus_IZR];
      apply Rabs_le; lra.
  - rewrite (Hhigh H), plus_IZR. apply Rabs_le. lra.
Qed.

(** X14.  [np.rint] returns an integer within one half of its argument,
    leaves integers alone, and sends a value halfway between two integers
    to the even one. *)
Theorem rint_nearest_even (x : R) (z : Z) :
  Rabs (IZR (Np.rint x) - x) <= 1 / 2 /\
  Np.rint (IZR z) = z /\
  Np.rint (IZR z + 1 / 2) = (if Z.even z then z else (z + 1)%Z).
Proof.
  split; [exact (rint_error x) | split].
  - assert (Hz : z = Int_part (IZR z)) by (apply Int_part_spec; lra).
    destruct (rint_cases (IZR z)) as [_ [_ [Hlow _]]].
    rewrite <- Hz in Hlow. rewrite Hlow by lra. reflexivity.
  - assert (Hz : z = Int_part (IZR z + 1 / 2)) by (apply Int_part_spec; lra).
    destruct (rint_cases (IZR z + 1 / 2)) as [_ [_ [_ [_ Htie]]]].
    rewrite <- Hz in Htie. apply Htie. lra.
Qed.

(** ** [unique] and [setdiff1d] *)

Lemma In_insert (x y : R) (l : list R) :
  In x (Np.insert y l) <-> x = y \/ In x l.
Proof.
  induction l as [| z l IH]; cbn [Np.insert].
  - cbn [In]. intuition.
  - destruct (Rle_dec y z) as [Hle | Hgt].
    + cbn [In]. intuition.
    + cbn [In]. rewrite IH. intuition.
Qed.

Lemma In_sort (x : R) (l : list R) : In x (Np.sort l) <-> In x l.
Proof.
  unfold Np.sort. induction l as [| y l IH]; cbn [fold_right].
  - reflexivity.
  - rewrite In_insert, IH. cbn [In]. intuition.
Qed.

Lemma insert_sorted (x : R) (l : list R) :
  StronglySorted Rle l -> StronglySorted Rle (Np.insert x l).
Proof.
  induction l as [| y l IH]; intros Hs; cbn [Np.insert].
  - constructor; constructor.
  - apply StronglySorted_inv in Hs. destruct Hs as [Hs Hall].
    destruct (Rle_dec x y) as [Hle | Hgt].
    + constructor.
      * constructor; assumption.
      * constructor; [exact Hle |].
        rewrite Forall_forall in *. intros z Hz.
        apply Rle_trans with y; [exact Hle | exact (Hall z Hz)].
    + constructor.
      * exact (IH Hs).
      * rewrite Forall_forall in *. intros z Hz.
        apply In_insert in Hz. destruct Hz as [-> | Hz].
        -- lra.
        -- exact (Hall z Hz).
Qed.

Lemma sort_sorted (l : list R) : StronglySorted Rle (Np.sort l).
Proof.
  unfold Np.sort. induction l as [| x l IH]; cbn [fold_right].
  - constructor.
  - apply insert_sorted. exact IH.
Qed.

Lemma dedup_cons (x y : R) (l : list R) :
  Np.dedup (x :: y :: l) =
    if Req_dec_T x y then Np.dedup (y :: l) else x :: Np.dedup (y :: l).
Proof. reflexivity. Qed.

Lemma In_dedup (x : R) (l : list R) : In x (Np.dedup l) <-> In x l.
Proof.
  induction l as [| y l IH].
  - reflexivity.
  - destruct l as [| z l].
    + reflexivity.
    + rewrite dedup_cons. destruct (Req_dec_T y z) as [Heq | Hne].
      * rewrite IH. subst z. cbn [In]. intuition.
      * cbn [In] in *. rewrite IH. intuition.
Qed.

Lemma dedup_sorted (l : list R) :
  StronglySorted Rle l -> StronglySorted Rlt (Np.dedup l).
Proof.
  induction l as [| x l IH]; intros Hs.
  - constructor.
  - apply StronglySorted_inv in Hs. destruct Hs as [Hs Hall].
    destruct l as [| y l].
    + constructor; constructor.
    + rewrite dedup_cons. destruct (Req_dec_T x y) as [Heq | Hne].
      * exact (IH Hs).
      * constructor; [exact (IH Hs) |].
        rewrite Forall_forall in *. intros z Hz.
        rewrite In_dedup in Hz. cbn [In] in Hz.
        assert (Hxy : x <= y) by (apply Hall; left; reflexivity).
        destruct Hz as [<- | Hz].
        -- lra.
        -- apply StronglySorted_inv in Hs. destruct Hs as [_ Hally].
           rewrite Forall_forall in Hally. specialize (Hally z Hz). lra.
Qed.

Lemma isin_In (x : R) (l : list R) : Np.isin x l = true <-> In x l.
Proof.
  unfold Np.isin. rewrite existsb_exists. split.
  - intros [y [Hy Heq]]. destruct (Req_dec_T x y) as [-> | _];
      [exact Hy | discriminate].
  - intros Hx. exists x. split; [exact Hx |].
    destruct (Req_dec_T x x) as [_ | Hn]; [reflexivity | contradiction].
Qed.

Lemma filter_sorted (f : R -> bool) (l : list R) :
  StronglySorted Rlt l -> StronglySorted Rlt (filter f l).
Proof.
  induction l as [| x l IH]; intros Hs; cbn [filter].
  - constructor.
  - apply StronglySorted_inv in Hs. destruct Hs as [Hs Hall].
    destruct (f x).
    + constructor; [exact (IH Hs) |].
      rewrite Forall_forall in *. intros z Hz.
      apply filter_In in Hz. apply Hall. tauto.
    + exact (IH Hs).
Qed.

(** X16.  [np.setdiff1d(ar1, ar2)] is strictly ascending, hence without
    repetition, and holds exactly the values of [ar1] that are not in
    [ar2]. *)
Theorem setdiff1d_spec (ar1 : list R) (ar2 : list Z) :
  StronglySorted Rlt (Np.setdiff1d ar1 ar2) /\
  forall x : R,
    In x (Np.setdiff1d ar1 ar2) <-> In x ar1 /\ ~ In x (map IZR ar2).
Proof.
  unfold Np.setdiff1d, Np.unique. split.
  - apply filter_sorted, dedup_sorted, sort_sorted.
  - intros x. rewrite filter_In, In_dedup, In_sort.
    rewrite negb_true_iff, <- not_true_iff_false, isin_In, In_dedup, In_sort.
    reflexivity.
Qed.

(** * Brewster's angle on the plot *)

(** X17.  [theta_brewster], the abscissa of the vertical guide line and
    of the annotation, obeys Brewster's law [tan theta = n_2/n_1], lies
    strictly inside the plotted range from 0 to 90 degrees, and is the
    angle at which the reflection coefficient returned by the evaluator
    is zero. *)
Theorem theta_brewster_law :
  tan (Np.radians theta_brewster) = n_2 / n_1 /\
  0 < theta_brewster < 90 /\
  reflectionAndTransmissionCoefficient (Np.radians theta_brewster) =
    Some (0, 2 / 3).
Proof.
  rewrite theta_brewster_radians, beta_val.
  split; [apply tan_atan | split].
  - pose proof theta_brewster_bounds. lra.
  - pose proof alphaAndBeta_brewster as Hab.
    unfold Np.arctan in Hab. rewrite beta_val in Hab.
    assert (Hsum : 3 / 2 + 3 / 2 <> 0) by lra.
    rewrite (coefficients_some _ _ _ Hab Hsum). f_equal. f_equal; field.
Qed.

(** X18.  Over the 90 samples below 90 degrees the sampled reflection
    coefficient is strictly increasing and the sampled transmission
    coefficient strictly decreasing. *)
Theorem sampled_coefficients_monotone (i j : nat) :
  (i < j)%nat -> (j <= 89)%nat ->
  exists ri ti rj tj : R,
    nth_error reflection_coefficient i = Some (Some ri) /\
    nth_error transmission_coefficient i = Some (Some ti) /\
    nth_error reflection_coefficient j = Some (Some rj) /\
    nth_error transmission_coefficient j = Some (Some tj) /\
    ri < rj /\ tj < ti.
Proof.
  intros Hij Hj.
  assert (Hi : (i <= 89)%nat) by lia.
  destruct (curves_nth i) as [Hri [Hti _]]; [lia |].
  destruct (curves_nth j) as [Hrj [Htj _]]; [lia |].
  pose proof (sample_acute i Hi) as Hthi.
  pose proof (sample_acute j Hj) as Hthj.
  destruct (evaluator_acute_values _ Hthi) as [_ [Hvi _]].
  destruct (evaluator_acute_values _ Hthj) as [_ [Hvj _]].
  rewrite Hvi in Hri, Hti. rewrite Hvj in Hrj, Htj.
  cbn [option_map fst snd] in Hri, Hti, Hrj, Htj.
  pose proof (alpha_ge_1_acute _ Hthi) as Hai.
  assert (Hinc : Spec.alpha (Spec.sample i) < Spec.alpha (Spec.sample j)).
  { apply alpha_increasing_acute; [tauto | exact (sample_lt i j Hij) | tauto]. }
  do 4 eexists.
  split; [exact Hri | split; [exact Hti | split; [exact Hrj | split; [exact Htj |]]]].
  split.
  - apply quotient_r_increasing; lra.
  - apply quotient_t_decreasing; lra.
Qed.

(** The hypotheses of X18 hold for the first and the last such sample. *)
Lemma sampled_coefficients_monotone_witness :
  (0 < 89)%nat /\ (89 <= 89)%nat /\
  exists ri ti rj tj : R,
    nth_error reflection_coefficient 0 = Some (Some ri) /\
    nth_error transmission_coefficient 0 = Some (Some ti) /\
    nth_error reflection_coefficient 89 = Some (Some rj) /\
    nth_error transmission_coefficient 89 = Some (Some tj) /\
    ri < rj /\ tj < ti.
Proof.
  assert (H1 : (0 < 89)%nat) by lia.
  assert (H2 : (89 <= 89)%nat) by lia.
  split; [exact H1 | split; [exact H2 |]].
  exact (sampled_coefficients_monotone 0 89 H1 H2).
Defined.
